(** * Three encodings of the sum type [List<T>] (sum-types)

    The repository defines the same four-operation list interface
    ([empty], [cons], [map], [toArray]) three times:

    - [tagged-union.ts]   : a record with a discriminant field ["type"];
    - [scott-encoding.ts] : an object holding one dispatcher closure
      [caseOf], with positional handlers, and a second variant of it with
      a keyed record of handlers;
    - [object-algebra.ts] : a function from an algebra to a result.

    A native array [T[]] is a [list T]; the spread [[head, ...tail]] is
    [head :: tail] and [Array.prototype.map] is [List.map].  A handler
    taking no argument, [() => Result], is a function from [unit]. *)

From Stdlib Require Import List Arith Lia ZArith.
Import ListNotations.

Set Implicit Arguments.

(** The native array type [T[]]. *)
Abbreviation array := Datatypes.list.

(** ** tagged-union.ts *)

Module TaggedUnion.

(** [type List<T> = { type: 'Cons'; head: T; tail: List<T> } | { type: 'Empty' }] *)
Inductive List (T : Type) : Type :=
| Cons (head : T) (tail : List T)
| Empty.
Arguments Empty {T}.

Definition empty {T : Type} : List T := Empty.

Definition cons {T : Type} (head : T) (tail : List T) : List T :=
  Cons head tail.

Fixpoint map {A B : Type} (list : List A) (f : A -> B) : List B :=
  match list with
  | Empty => empty
  | Cons head tail => cons (f head) (map tail f)
  end.

Fixpoint toArray {T : Type} (list : List T) : array T :=
  match list with
  | Empty => []
  | Cons head tail => head :: toArray tail
  end.

(** The list [cons(x1, cons(x2, ... empty()))] of a sequence of elements. *)
Definition build {T : Type} (xs : array T) : List T :=
  fold_right cons empty xs.

End TaggedUnion.

(** ** scott-encoding.ts, positional handlers

    A [List<T>] is an object [{ caseOf }] whose only field is a closure.
    The type [<Result>(onEmpty, onCons: (head, tail: List<T>) => Result) => Result]
    mentions [List<T>] to the left of two arrows, so it is no inductive type
    of functions.  The closures are therefore represented by what they are
    at run time: a code pointer and the captured variables.  The module
    creates a [caseOf] closure at exactly three places ([empty], [cons],
    [map]); [List] has one constructor per place, holding the captured
    variables, and [caseOf] runs the body of the closure. *)

Module ScottEncoding.

Inductive List (T : Type) : Type :=
| EmptyClosure
| ConsClosure (head : T) (tail : List T)
| MapClosure (A : Type) (list : List A) (f : A -> T).
Arguments EmptyClosure {T}.
Arguments MapClosure {T A} list f.

Definition empty {T : Type} : List T := EmptyClosure.

Definition cons {T : Type} (head : T) (tail : List T) : List T :=
  ConsClosure head tail.

Definition map {A B : Type} (list : List A) (f : A -> B) : List B :=
  MapClosure list f.

(** [list.caseOf(onEmpty, onCons)]: the bodies of the three closures. *)
Fixpoint caseOf {T : Type} (l : List T) {Result : Type}
    (onEmpty : unit -> Result) (onCons : T -> List T -> Result)
    {struct l} : Result :=
  match l with
  | EmptyClosure => onEmpty tt
  | ConsClosure head tail => onCons head tail
  | MapClosure list f =>
      caseOf list
        (fun _ => onEmpty tt)
        (fun head tail => onCons (f head) (map tail f))
  end.

(** [toArray] calls itself from inside the handler it passes to
    [caseOf], on whatever tail the dispatcher hands over.  The recursion
    is bounded by the depth of the call stack: [None] when it is
    exhausted. *)
Fixpoint toArray {T : Type} (depth : nat) (list : List T) : option (array T) :=
  match depth with
  | O => None
  | S depth' =>
      caseOf list
        (fun _ => Some [])
        (fun head tail =>
           match toArray depth' tail with
           | Some rest => Some (head :: rest)
           | None => None
           end)
  end.

Definition build {T : Type} (xs : array T) : List T :=
  fold_right cons empty xs.

(** [toArray(list)] returns the array [ys] (at some depth of stack). *)
Definition returns {T : Type} (list : List T) (ys : array T) : Prop :=
  exists depth, toArray depth list = Some ys.

(** What a dispatcher does with its handlers: it calls [onEmpty], or it
    calls [onCons] on a head and a tail.  [view] computes which. *)
Inductive View (T : Type) : Type :=
| IsEmpty
| IsCons (head : T) (tail : List T).
Arguments IsEmpty {T}.

Fixpoint view {T : Type} (l : List T) : View T :=
  match l with
  | EmptyClosure => IsEmpty
  | ConsClosure head tail => IsCons head tail
  | MapClosure list f =>
      match view list with
      | IsEmpty => IsEmpty
      | IsCons head tail => IsCons (f head) (map tail f)
      end
  end.

(** The logical sequence a closure stands for. *)
Fixpoint elements {T : Type} (l : List T) : array T :=
  match l with
  | EmptyClosure => []
  | ConsClosure head tail => head :: elements tail
  | MapClosure list f => List.map f (elements list)
  end.

End ScottEncoding.

(** ** scott-encoding.ts, keyed handlers

    The same encoding, the two handlers being passed as one record
    [{ Empty, Cons }]. *)

Module ScottKeyed.

(** The argument of [caseOf]; [L] stands for [List<T>]. *)
Record Cases (T L Result : Type) : Type := {
  Empty : unit -> Result;
  Cons : T -> L -> Result
}.

Inductive List (T : Type) : Type :=
| EmptyClosure
| ConsClosure (head : T) (tail : List T)
| MapClosure (A : Type) (list : List A) (f : A -> T).
Arguments EmptyClosure {T}.
Arguments MapClosure {T A} list f.

Definition empty {T : Type} : List T := EmptyClosure.

Definition cons {T : Type} (head : T) (tail : List T) : List T :=
  ConsClosure head tail.

Definition map {A B : Type} (list : List A) (f : A -> B) : List B :=
  MapClosure list f.

Fixpoint caseOf {T : Type} (l : List T) {Result : Type}
    (cases : Cases T (List T) Result) {struct l} : Result :=
  match l with
  | EmptyClosure => Empty cases tt
  | ConsClosure head tail => Cons cases head tail
  | MapClosure list f =>
      caseOf list
        {| Empty := fun _ => Empty cases tt;
           Cons := fun head tail => Cons cases (f head) (map tail f) |}
  end.

Fixpoint toArray {T : Type} (depth : nat) (list : List T) : option (array T) :=
  match depth with
  | O => None
  | S depth' =>
      caseOf list
        {| Empty := fun _ => Some [];
           Cons := fun head tail =>
             match toArray depth' tail with
             | Some rest => Some (head :: rest)
             | None => None
             end |}
  end.

Definition build {T : Type} (xs : array T) : List T :=
  fold_right cons empty xs.

(** [toArray(list)] returns the array [ys] (at some depth of stack). *)
Definition returns {T : Type} (list : List T) (ys : array T) : Prop :=
  exists depth, toArray depth list = Some ys.

(** What a dispatcher does with its handlers: it calls [onEmpty], or it
    calls [onCons] on a head and a tail.  [view] computes which. *)
Inductive View (T : Type) : Type :=
| IsEmpty
| IsCons (head : T) (tail : List T).
Arguments IsEmpty {T}.

Fixpoint view {T : Type} (l : List T) : View T :=
  match l with
  | EmptyClosure => IsEmpty
  | ConsClosure head tail => IsCons head tail
  | MapClosure list f =>
      match view list with
      | IsEmpty => IsEmpty
      | IsCons head tail => IsCons (f head) (map tail f)
      end
  end.

(** The logical sequence a closure stands for. *)
Fixpoint elements {T : Type} (l : List T) : array T :=
  match l with
  | EmptyClosure => []
  | ConsClosure head tail => head :: elements tail
  | MapClosure list f => List.map f (elements list)
  end.

End ScottKeyed.

(** ** object-algebra.ts

    [List<T> = <Result>(_: ListAlg<T, Result>) => Result].  [map] applies
    its list at [Result = List<B>], a type that itself quantifies over
    result types, so [List] is universe polymorphic: the argument of [map]
    lives one level above its result. *)

Module ObjectAlgebra.

Set Universe Polymorphism.

Module ListAlg.
(** [interface ListAlg<T, ListT> { empty(): ListT; cons(head: T, tail: ListT): ListT }] *)
Record ListAlg (T ListT : Type) : Type := {
  empty : unit -> ListT;
  cons : T -> ListT -> ListT
}.
End ListAlg.
Abbreviation ListAlg := ListAlg.ListAlg.

Definition List (T : Type) : Type :=
  forall Result : Type, ListAlg T Result -> Result.

Definition empty {T : Type} : List T :=
  fun Result L => ListAlg.empty L tt.

Definition cons {T : Type} (first : T) (rest : List T) : List T :=
  fun Result L => ListAlg.cons L first (rest Result L).

Definition map {A B : Type} (list : List A) (f : A -> B) : List B :=
  list (List B)
    {| ListAlg.empty := fun _ => empty;
       ListAlg.cons := fun head tail => cons (f head) tail |}.

Definition toArray {T : Type} (list : List T) : array T :=
  list (array T)
    {| ListAlg.empty := fun _ => [];
       ListAlg.cons := fun head tail => head :: tail |}.

Definition build {T : Type} (xs : array T) : List T :=
  fold_right cons empty xs.

(** The same list written as one function literal
    [(L) => L.cons(x1, L.cons(x2, ... L.empty()))]. *)
Definition literal {T : Type} (xs : array T) : List T :=
  fun Result L => fold_right (ListAlg.cons L) (ListAlg.empty L tt) xs.

Unset Universe Polymorphism.

End ObjectAlgebra.


(** ** When the closures run

    The values above do not tell when a closure is invoked.  To tell it,
    the same code is run in a state monad whose state counts the
    invocations so far: a call of a constructor or of [map] is a
    computation that returns the closure it allocates, and the body of a
    counted closure starts by incrementing the counter. *)

Module Counted.

Set Universe Polymorphism.

Definition Run (R : Type) : Type := nat -> R * nat.

Definition ret {R : Type} (x : R) : Run R := fun n => (x, n).

Definition bind {R S : Type} (m : Run R) (k : R -> Run S) : Run S :=
  fun n => let (x, n') := m n in k x n'.

(** A counted closure has been entered. *)
Definition invoked : Run unit := fun n => (tt, S n).

Unset Universe Polymorphism.

Module Notations.
Notation "x <- m ;; k" := (bind m (fun x => k))
  (at level 61, m at next level, right associativity).
Notation "m ;; k" := (bind m (fun _ => k))
  (at level 61, right associativity).
End Notations.

End Counted.

(** [scott-encoding.ts], counting the invocations of [caseOf] closures. *)

Module ScottCounted.
Import Counted Counted.Notations.
Export ScottEncoding (List, EmptyClosure, ConsClosure, MapClosure).

Definition empty {T : Type} : Run (List T) := ret EmptyClosure.

Definition cons {T : Type} (head : T) (tail : List T) : Run (List T) :=
  ret (ConsClosure head tail).

Definition map {A B : Type} (list : List A) (f : A -> B) : Run (List B) :=
  ret (MapClosure list f).

Fixpoint caseOf {T : Type} (l : List T) {Result : Type}
    (onEmpty : unit -> Run Result) (onCons : T -> List T -> Run Result)
    {struct l} : Run Result :=
  invoked ;;
  match l with
  | EmptyClosure => onEmpty tt
  | ConsClosure head tail => onCons head tail
  | MapClosure list f =>
      caseOf list
        (fun _ => onEmpty tt)
        (fun head tail => mapped <- map tail f ;; onCons (f head) mapped)
  end.

Fixpoint toArray {T : Type} (depth : nat) (list : List T)
    : Run (option (array T)) :=
  match depth with
  | O => ret None
  | S depth' =>
      caseOf list
        (fun _ => ret (Some []))
        (fun head tail =>
           rest <- toArray depth' tail ;;
           ret (match rest with
                | Some rest => Some (head :: rest)
                | None => None
                end))
  end.

(** [cons(x1, cons(x2, ... empty()))], the innermost call first. *)
Fixpoint build {T : Type} (xs : array T) : Run (List T) :=
  match xs with
  | [] => empty
  | x :: xs' => tail <- build xs' ;; cons x tail
  end.

End ScottCounted.

(** [object-algebra.ts], counting the invocations of list functions. *)

Module AlgebraCounted.
Import Counted Counted.Notations.

Set Universe Polymorphism.

Module ListAlg.
Record ListAlg (T ListT : Type) : Type := {
  empty : unit -> Run ListT;
  cons : T -> ListT -> Run ListT
}.
End ListAlg.
Abbreviation ListAlg := ListAlg.ListAlg.

Definition List (T : Type) : Type :=
  forall Result : Type, ListAlg T Result -> Run Result.

Definition empty {T : Type} : Run (List T) :=
  ret (fun Result L => invoked ;; ListAlg.empty L tt).

Definition cons {T : Type} (first : T) (rest : List T) : Run (List T) :=
  ret (fun Result L =>
         invoked ;;
         folded <- rest Result L ;;
         ListAlg.cons L first folded).

Definition map {A B : Type} (list : List A) (f : A -> B) : Run (List B) :=
  list (List B)
    {| ListAlg.empty := fun _ => empty;
       ListAlg.cons := fun head tail => cons (f head) tail |}.

Definition toArray {T : Type} (list : List T) : Run (array T) :=
  list (array T)
    {| ListAlg.empty := fun _ => ret [];
       ListAlg.cons := fun head tail => ret (head :: tail) |}.

Fixpoint build {T : Type} (xs : array T) : Run (List T) :=
  match xs with
  | [] => empty
  | x :: xs' => rest <- build xs' ;; cons x rest
  end.

Unset Universe Polymorphism.

End AlgebraCounted.

(** ** The test files

    [tagged-union.test.ts], [scott-encoding.test.ts] and
    [object-algebra.test.ts] run the same scenario.  The numbers of the
    tests are small integers, on which the product of two JavaScript
    numbers is the product of integers: they are taken in [Z]. *)

Module Tests.

Definition square (n : Z) : Z := (n * n)%Z.

Definition tagged_numbers : TaggedUnion.List Z :=
  TaggedUnion.cons 3%Z (TaggedUnion.cons 2%Z TaggedUnion.empty).
Definition tagged_squares : TaggedUnion.List Z :=
  TaggedUnion.map tagged_numbers square.

Definition scott_numbers : ScottEncoding.List Z :=
  ScottEncoding.cons 3%Z (ScottEncoding.cons 2%Z ScottEncoding.empty).
Definition scott_squares : ScottEncoding.List Z :=
  ScottEncoding.map scott_numbers square.

Definition keyed_numbers : ScottKeyed.List Z :=
  ScottKeyed.cons 3%Z (ScottKeyed.cons 2%Z ScottKeyed.empty).
Definition keyed_squares : ScottKeyed.List Z :=
  ScottKeyed.map keyed_numbers square.

Import ObjectAlgebra.

Definition alg_numbers : List Z := cons 3%Z (cons 2%Z empty).
Definition alg_squares : List Z := map alg_numbers square.

(** [const numbers: List<number> = (L) => L.cons(3, L.cons(2, L.empty()))] *)
Definition lambda_numbers : List Z :=
  fun Result L =>
    ListAlg.cons L 3%Z (ListAlg.cons L 2%Z (ListAlg.empty L tt)).
Definition lambda_squares : List Z := map lambda_numbers square.

End Tests.

(** ** The second [map] of the article

    [doc/article.md] gives a second object-algebra [map], which returns a
    function instead of calling the constructors:
    [(list, f) => (L) => list({ empty: () => L.empty(),
                                cons: (head, tail) => L.cons(f(head), tail) })]. *)

Module ArticleMap.
Import ObjectAlgebra.

Set Universe Polymorphism.

Definition map {A B : Type} (list : List A) (f : A -> B) : List B :=
  fun Result L =>
    list Result
      {| ListAlg.empty := fun _ => ListAlg.empty L tt;
         ListAlg.cons := fun head tail => ListAlg.cons L (f head) tail |}.

Unset Universe Polymorphism.

End ArticleMap.

(** The same [map], counting the invocations of list functions. *)

Module ArticleMapCounted.
Import Counted Counted.Notations.
Import AlgebraCounted.

Set Universe Polymorphism.

Definition map {A B : Type} (list : List A) (f : A -> B) : Run (List B) :=
  ret (fun Result L =>
         invoked ;;
         list Result
           {| ListAlg.empty := fun _ => ListAlg.empty L tt;
              ListAlg.cons := fun head tail => ListAlg.cons L (f head) tail |}).

(** The list function that [AlgebraCounted.build] allocates. *)
Fixpoint built {T : Type} (xs : array T) : List T :=
  match xs with
  | [] => fun Result L => invoked ;; ListAlg.empty L tt
  | x :: xs' =>
      fun Result L =>
        invoked ;;
        folded <- (built xs' : List T) Result L ;;
        ListAlg.cons L x folded
  end.

Unset Universe Polymorphism.

End ArticleMapCounted.

(** ** One program, three modules

    A value of [ScottEncoding.List] records the calls of [empty], [cons]
    and [map] that made it.  [toKeyed] and [toTagged] make the same calls
    in the keyed variant and in the tagged-union module. *)

Module Replay.

Fixpoint toKeyed {T : Type} (l : ScottEncoding.List T) : ScottKeyed.List T :=
  match l with
  | ScottEncoding.EmptyClosure => ScottKeyed.empty
  | ScottEncoding.ConsClosure head tail => ScottKeyed.cons head (toKeyed tail)
  | ScottEncoding.MapClosure list f => ScottKeyed.map (toKeyed list) f
  end.

Fixpoint toTagged {T : Type} (l : ScottEncoding.List T) : TaggedUnion.List T :=
  match l with
  | ScottEncoding.EmptyClosure => TaggedUnion.empty
  | ScottEncoding.ConsClosure head tail => TaggedUnion.cons head (toTagged tail)
  | ScottEncoding.MapClosure list f => TaggedUnion.map (toTagged list) f
  end.

(** The number of dispatchers one call of [caseOf] goes through: the
    closure itself and the closures under it. *)
Fixpoint layers {T : Type} (l : ScottEncoding.List T) : nat :=
  match l with
  | ScottEncoding.EmptyClosure => 1
  | ScottEncoding.ConsClosure _ _ => 1
  | ScottEncoding.MapClosure list _ => S (layers list)
  end.

(** [map(... map(map(l, f), f) ..., f)], [k] times. *)
Definition mapTimes {A : Type} (k : nat) (f : A -> A)
    (l : ScottEncoding.List A) : ScottEncoding.List A :=
  Nat.iter k (fun l' => ScottEncoding.map l' f) l.

End Replay.

(** * Properties *)

(** ** Tagged union *)

Module TaggedUnionFacts.
Import TaggedUnion.

Lemma tagged_toArray_build (T : Type) (xs : array T) : toArray (build xs) = xs.
Proof.
  induction xs as [|x xs IH]; simpl; [reflexivity|].
  now rewrite IH.
Qed.

Lemma tagged_toArray_map (A B : Type) (f : A -> B) (l : List A) :
  toArray (map l f) = List.map f (toArray l).
Proof.
  induction l as [head tail IH|]; simpl; [|reflexivity].
  now rewrite IH.
Qed.

End TaggedUnionFacts.

(** ** Scott encoding, positional handlers *)

Module ScottEncodingFacts.
Import ScottEncoding.

Lemma scott_caseOf_view (T : Type) (l : List T) :
  forall (Result : Type) (onEmpty : unit -> Result)
         (onCons : T -> List T -> Result),
    caseOf l onEmpty onCons =
    match view l with
    | IsEmpty => onEmpty tt
    | IsCons head tail => onCons head tail
    end.
Proof.
  induction l as [T|T head tail _|T A list IH f]; intros; simpl;
    try reflexivity.
  rewrite IH. now destruct (view list).
Qed.

Lemma scott_view_elements (T : Type) (l : List T) :
  match view l with
  | IsEmpty => elements l = []
  | IsCons head tail => elements l = head :: elements tail
  end.
Proof.
  induction l as [T|T head tail _|T A list IH f]; simpl; try reflexivity.
  destruct (view list); rewrite IH; reflexivity.
Qed.

(** A stack deeper than the list is long is enough. *)
Lemma scott_toArray_elements (depth : nat) :
  forall (T : Type) (l : List T),
    length (elements l) < depth -> toArray depth l = Some (elements l).
Proof.
  induction depth as [|depth IH]; intros T l Hlen; [lia|].
  simpl. rewrite scott_caseOf_view.
  pose proof (scott_view_elements l) as Hv.
  destruct (view l) as [|head tail]; rewrite Hv in *; [reflexivity|].
  simpl in Hlen. rewrite IH by lia. reflexivity.
Qed.

(** Whenever [toArray] returns, it returns the logical sequence. *)
Lemma scott_toArray_sound (depth : nat) :
  forall (T : Type) (l : List T) (ys : array T),
    toArray depth l = Some ys -> ys = elements l.
Proof.
  induction depth as [|depth IH]; intros T l ys; simpl; [discriminate|].
  rewrite scott_caseOf_view.
  pose proof (scott_view_elements l) as Hv.
  destruct (view l) as [|head tail]; rewrite Hv.
  - now intros [= <-].
  - destruct (toArray depth tail) as [rest|] eqn:E; [|discriminate].
    intros [= <-]. now rewrite (IH _ _ _ E).
Qed.

Lemma scott_returns_elements (T : Type) (l : List T) : returns l (elements l).
Proof. exists (S (length (elements l))). apply scott_toArray_elements. lia. Qed.

Lemma scott_returns_deterministic (T : Type) (l : List T) (ys zs : array T) :
  returns l ys -> returns l zs -> ys = zs.
Proof.
  intros [d1 H1] [d2 H2].
  rewrite (scott_toArray_sound _ _ H1), (scott_toArray_sound _ _ H2). reflexivity.
Qed.

Lemma scott_elements_build (T : Type) (xs : array T) : elements (build xs) = xs.
Proof.
  induction xs as [|x xs IH]; simpl; [reflexivity|].
  now rewrite IH.
Qed.

Lemma scott_returns_build (T : Type) (xs : array T) : returns (build xs) xs.
Proof.
  pose proof (scott_returns_elements (build xs)) as H.
  now rewrite scott_elements_build in H.
Qed.

Lemma scott_returns_map (A B : Type) (f : A -> B) (l : List A) :
  returns (map l f) (List.map f (elements l)).
Proof. exact (scott_returns_elements (map l f)). Qed.

Lemma scott_returns_map_build (A B : Type) (f : A -> B) (xs : array A) :
  returns (map (build xs) f) (List.map f xs).
Proof.
  pose proof (scott_returns_map f (build xs)) as H.
  now rewrite scott_elements_build in H.
Qed.

Lemma scott_toArray_map_build (A B : Type) (f : A -> B) (xs : array A) (k : nat) :
  toArray (S (length xs) + k) (map (build xs) f) = Some (List.map f xs).
Proof.
  pose proof (@scott_toArray_elements (S (length xs) + k) _ (map (build xs) f))
    as H.
  simpl in H. rewrite length_map, scott_elements_build in H.
  apply H. lia.
Qed.

End ScottEncodingFacts.

(** ** Scott encoding, keyed handlers *)

Module ScottKeyedFacts.
Import ScottKeyed.

Lemma keyed_caseOf_view (T : Type) (l : List T) :
  forall (Result : Type) (cases : Cases T (List T) Result),
    caseOf l cases =
    match view l with
    | IsEmpty => Empty cases tt
    | IsCons head tail => Cons cases head tail
    end.
Proof.
  induction l as [T|T head tail _|T A list IH f]; intros; simpl;
    try reflexivity.
  rewrite IH. now destruct (view list).
Qed.

Lemma keyed_view_elements (T : Type) (l : List T) :
  match view l with
  | IsEmpty => elements l = []
  | IsCons head tail => elements l = head :: elements tail
  end.
Proof.
  induction l as [T|T head tail _|T A list IH f]; simpl; try reflexivity.
  destruct (view list); rewrite IH; reflexivity.
Qed.

Lemma keyed_toArray_elements (depth : nat) :
  forall (T : Type) (l : List T),
    length (elements l) < depth -> toArray depth l = Some (elements l).
Proof.
  induction depth as [|depth IH]; intros T l Hlen; [lia|].
  simpl. rewrite keyed_caseOf_view. simpl.
  pose proof (keyed_view_elements l) as Hv.
  destruct (view l) as [|head tail]; rewrite Hv in *; [reflexivity|].
  simpl in Hlen. rewrite IH by lia. reflexivity.
Qed.

Lemma keyed_toArray_sound (depth : nat) :
  forall (T : Type) (l : List T) (ys : array T),
    toArray depth l = Some ys -> ys = elements l.
Proof.
  induction depth as [|depth IH]; intros T l ys; simpl; [discriminate|].
  rewrite keyed_caseOf_view. simpl.
  pose proof (keyed_view_elements l) as Hv.
  destruct (view l) as [|head tail]; rewrite Hv.
  - now intros [= <-].
  - destruct (toArray depth tail) as [rest|] eqn:E; [|discriminate].
    intros [= <-]. now rewrite (IH _ _ _ E).
Qed.

Lemma keyed_returns_elements (T : Type) (l : List T) : returns l (elements l).
Proof. exists (S (length (elements l))). apply keyed_toArray_elements. lia. Qed.

Lemma keyed_returns_deterministic (T : Type) (l : List T) (ys zs : array T) :
  returns l ys -> returns l zs -> ys = zs.
Proof.
  intros [d1 H1] [d2 H2].
  rewrite (keyed_toArray_sound _ _ H1), (keyed_toArray_sound _ _ H2). reflexivity.
Qed.

Lemma keyed_elements_build (T : Type) (xs : array T) : elements (build xs) = xs.
Proof.
  induction xs as [|x xs IH]; simpl; [reflexivity|].
  now rewrite IH.
Qed.

Lemma keyed_returns_build (T : Type) (xs : array T) : returns (build xs) xs.
Proof.
  pose proof (keyed_returns_elements (build xs)) as H.
  now rewrite keyed_elements_build in H.
Qed.

Lemma keyed_returns_map (A B : Type) (f : A -> B) (l : List A) :
  returns (map l f) (List.map f (elements l)).
Proof. exact (keyed_returns_elements (map l f)). Qed.

Lemma keyed_returns_map_build (A B : Type) (f : A -> B) (xs : array A) :
  returns (map (build xs) f) (List.map f xs).
Proof.
  pose proof (keyed_returns_map f (build xs)) as H.
  now rewrite keyed_elements_build in H.
Qed.

Lemma keyed_toArray_map_build (A B : Type) (f : A -> B) (xs : array A) (k : nat) :
  toArray (S (length xs) + k) (map (build xs) f) = Some (List.map f xs).
Proof.
  pose proof (@keyed_toArray_elements (S (length xs) + k) _ (map (build xs) f))
    as H.
  simpl in H. rewrite length_map, keyed_elements_build in H.
  apply H. lia.
Qed.

End ScottKeyedFacts.

(** ** Object algebra *)

Module ObjectAlgebraFacts.
Import ObjectAlgebra.

Set Universe Polymorphism.

Lemma alg_toArray_build (T : Type) (xs : array T) : toArray (build xs) = xs.
Proof.
  induction xs as [|x xs IH]; [reflexivity|].
  change (x :: toArray (build xs) = x :: xs). now rewrite IH.
Qed.

(** Folding a built list through the algebra of [map] rebuilds the list
    of the images. *)
Lemma alg_map_build (A B : Type) (f : A -> B) (xs : array A) :
  map (build xs) f = build (List.map f xs).
Proof.
  induction xs as [|x xs IH]; [reflexivity|].
  change (cons (f x) (map (build xs) f) = cons (f x) (build (List.map f xs))).
  now rewrite IH.
Qed.

Lemma alg_toArray_map_build (A B : Type) (f : A -> B) (xs : array A) :
  toArray (map (build xs) f) = List.map f (toArray (build xs)).
Proof. now rewrite alg_map_build, !alg_toArray_build. Qed.

(** A literal and the constructors give the same result on every algebra. *)
Lemma alg_literal_build (T : Type) (xs : array T) :
  forall (Result : Type) (L : ListAlg T Result),
    literal xs L = build xs L.
Proof.
  intros Result L. induction xs as [|x xs IH]; [reflexivity|].
  change (ListAlg.cons L x (literal xs L) = ListAlg.cons L x (build xs L)).
  now rewrite IH.
Qed.

Unset Universe Polymorphism.

End ObjectAlgebraFacts.

(** ** Counted runs *)

Module ScottCountedFacts.
Import Counted Counted.Notations.

(** Counting changes no result: a counted dispatcher whose handlers
    return what the plain handlers return, returns what the plain
    dispatcher returns. *)
Lemma counted_caseOf_erase (T : Type) (l : ScottEncoding.List T) :
  forall (Result : Type)
         (onEmpty : unit -> Run Result)
         (onCons : T -> ScottEncoding.List T -> Run Result)
         (onEmpty' : unit -> Result)
         (onCons' : T -> ScottEncoding.List T -> Result),
    (forall n, fst (onEmpty tt n) = onEmpty' tt) ->
    (forall head tail n, fst (onCons head tail n) = onCons' head tail) ->
    forall n,
      fst (ScottCounted.caseOf l onEmpty onCons n)
        = ScottEncoding.caseOf l onEmpty' onCons'.
Proof.
  induction l as [T|T head tail _|T A list IH f];
    intros Result onEmpty onCons onEmpty' onCons' HE HC n; simpl.
  - apply HE.
  - apply HC.
  - apply IH; [intros; apply HE|].
    intros head tail m. apply HC.
Qed.

Lemma counted_toArray_erase (depth : nat) :
  forall (T : Type) (l : ScottEncoding.List T) (n : nat),
    fst (ScottCounted.toArray depth l n) = ScottEncoding.toArray depth l.
Proof.
  induction depth as [|depth IH]; intros T l n; [reflexivity|].
  simpl. apply counted_caseOf_erase; [reflexivity|].
  intros head tail m. unfold bind.
  specialize (IH T tail m).
  destruct (ScottCounted.toArray depth tail m) as [rest m'].
  simpl in *. now rewrite IH.
Qed.

Lemma counted_build (T : Type) (xs : array T) (n : nat) :
  ScottCounted.build xs n = (ScottEncoding.build xs, n).
Proof.
  induction xs as [|x xs IH]; [reflexivity|].
  simpl. unfold bind. now rewrite IH.
Qed.

(** One step of [toArray] on the image of a non-empty list: the closure
    of [map] is entered, then the closure of [cons] under it. *)
Lemma counted_toArray_step (A B : Type) (f : A -> B) (x : A)
    (tail : ScottEncoding.List A) (depth n : nat) :
  ScottCounted.toArray (S depth)
    (ScottEncoding.map (ScottEncoding.cons x tail) f) n
  = let (rest, m) :=
      ScottCounted.toArray depth (ScottEncoding.map tail f) (S (S n)) in
    (match rest with
     | Some rest => Some (f x :: rest)
     | None => None
     end, m).
Proof. reflexivity. Qed.

(** Forcing the image of an [n]-element list enters two dispatchers per
    node: the one [map] allocated and the one of the list under it. *)
Lemma counted_toArray_map (A B : Type) (f : A -> B) (xs : array A) :
  forall k n,
    ScottCounted.toArray (S (length xs) + k)
      (ScottEncoding.map (ScottEncoding.build xs) f) n
    = (Some (List.map f xs), n + 2 * S (length xs)).
Proof.
  induction xs as [|x xs IH]; intros k n.
  - simpl. unfold bind, ret, invoked. simpl. do 2 f_equal. lia.
  - change (S (length (x :: xs)) + k) with (S (S (length xs) + k)).
    change (ScottEncoding.build (x :: xs))
      with (ScottEncoding.cons x (ScottEncoding.build xs)).
    rewrite counted_toArray_step, IH. simpl. f_equal. lia.
Qed.

End ScottCountedFacts.

Module AlgebraCountedFacts.
Import Counted Counted.Notations.
Import AlgebraCounted.

Set Universe Polymorphism.

(** Building a list invokes no list function.  The list runs when it is
    given an algebra: once per node under [toArray], and once per node
    already under [map], which hands its algebra over at once. *)
Lemma counted_alg_build (T : Type) (xs : array T) :
  forall n, exists l : List T,
    build xs n = (l, n)
    /\ (forall m, toArray l m = (xs, m + S (length xs)))
    /\ (forall (B : Type) (f : T -> B) m,
          snd (map l f m) = m + S (length xs)).
Proof.
  induction xs as [|x xs IH]; intros n.
  - eexists. split; [reflexivity|]. split.
    + intros m. unfold toArray, bind, invoked, ret. simpl.
      now rewrite Nat.add_comm.
    + intros B f m. unfold map, bind, invoked, empty, ret. simpl.
      now rewrite Nat.add_comm.
  - destruct (IH n) as (l & Hl & Harr & Hmap).
    eexists. split; [simpl; unfold bind; rewrite Hl; reflexivity|]. split.
    + intros m. unfold toArray, bind at 1, invoked.
      unfold bind at 1.
      change (l (array T) _ (S m)) with (toArray l (S m)).
      rewrite Harr. unfold ret. simpl.
      now rewrite (Nat.add_succ_r m (S (length xs))).
    + intros B f m. unfold map, bind at 1, invoked.
      unfold bind at 1.
      change (l (List B) _ (S m)) with (map l f (S m)).
      specialize (Hmap B f (S m)).
      destruct (map l f (S m)) as [l' m']. simpl in *. lia.
Qed.

Unset Universe Polymorphism.

End AlgebraCountedFacts.

(** ** The scenario of the tests *)

Module TestsFacts.
Import Tests.

Example tagged_test : TaggedUnion.toArray tagged_squares = [9; 4]%Z.
Proof. reflexivity. Qed.

Example scott_test : ScottEncoding.toArray 3 scott_squares = Some [9; 4]%Z.
Proof. reflexivity. Qed.

Example keyed_test : ScottKeyed.toArray 3 keyed_squares = Some [9; 4]%Z.
Proof. reflexivity. Qed.

Example alg_test : ObjectAlgebra.toArray alg_squares = [9; 4]%Z.
Proof. reflexivity. Qed.

Example lambda_test : ObjectAlgebra.toArray lambda_squares = [9; 4]%Z.
Proof. reflexivity. Qed.

(** A stack of two frames is too shallow for a list of two elements. *)
Example scott_shallow : ScottEncoding.toArray 2 scott_squares = None.
Proof. reflexivity. Qed.

End TestsFacts.

(** * The laws of the specification *)

Import TaggedUnionFacts ScottEncodingFacts ScottKeyedFacts ObjectAlgebraFacts.

(** C1. In each encoding, for every list built from [cons]/[empty] and
    every function [f], [toArray(map(list, f))] is [toArray(list).map(f)].
    In the Scott encoding both calls return ([returns] is a function of
    the list, see [scott_returns_deterministic]), and the array of the
    mapped list is the image of the array [ys] of the list. *)
Theorem map_commutes_with_toArray (A B : Type) (f : A -> B) (xs : array A) :
  TaggedUnion.toArray (TaggedUnion.map (TaggedUnion.build xs) f)
    = List.map f (TaggedUnion.toArray (TaggedUnion.build xs))
  /\ (exists ys,
        ScottEncoding.returns (ScottEncoding.build xs) ys /\
        ScottEncoding.returns
          (ScottEncoding.map (ScottEncoding.build xs) f) (List.map f ys))
  /\ (exists ys,
        ScottKeyed.returns (ScottKeyed.build xs) ys /\
        ScottKeyed.returns
          (ScottKeyed.map (ScottKeyed.build xs) f) (List.map f ys))
  /\ ObjectAlgebra.toArray (ObjectAlgebra.map (ObjectAlgebra.build xs) f)
    = List.map f (ObjectAlgebra.toArray (ObjectAlgebra.build xs)).
Proof.
  repeat split.
  - apply tagged_toArray_map.
  - exists xs. split.
    + apply scott_returns_build.
    + apply scott_returns_map_build.
  - exists xs. split.
    + apply keyed_returns_build.
    + apply keyed_returns_map_build.
  - apply alg_toArray_map_build.
Qed.

(** C2. For every sequence of elements, the list built by nested [cons]
    ended by [empty()] gives the same native array under [toArray] in the
    tagged-union, the Scott (positional and keyed) and the object-algebra
    encoding. *)
Theorem cross_encoding_toArray (T : Type) (xs : array T) :
  ScottEncoding.returns (ScottEncoding.build xs)
    (TaggedUnion.toArray (TaggedUnion.build xs))
  /\ ScottKeyed.returns (ScottKeyed.build xs)
    (TaggedUnion.toArray (TaggedUnion.build xs))
  /\ ObjectAlgebra.toArray (ObjectAlgebra.build xs)
    = TaggedUnion.toArray (TaggedUnion.build xs).
Proof.
  rewrite tagged_toArray_build. repeat split.
  - apply scott_returns_build.
  - apply keyed_returns_build.
  - apply alg_toArray_build.
Qed.

(** C3. In each encoding [toArray(empty())] is the empty array and
    [toArray(cons(x, xs))] is [x] followed by [toArray(xs)].  In the Scott
    encoding [xs] is any list value ([empty], [cons] or [map] closures):
    [toArray(xs)] returns some [ys] and [toArray(cons(x, xs))] returns
    [x :: ys]. *)
Theorem toArray_unfolding (T : Type) :
  (TaggedUnion.toArray (@TaggedUnion.empty T) = []
   /\ forall (x : T) (xs : TaggedUnion.List T),
        TaggedUnion.toArray (TaggedUnion.cons x xs)
          = x :: TaggedUnion.toArray xs)
  /\ (ScottEncoding.returns (@ScottEncoding.empty T) []
      /\ forall (x : T) (xs : ScottEncoding.List T),
           exists ys, ScottEncoding.returns xs ys /\
                      ScottEncoding.returns (ScottEncoding.cons x xs) (x :: ys))
  /\ (ScottKeyed.returns (@ScottKeyed.empty T) []
      /\ forall (x : T) (xs : ScottKeyed.List T),
           exists ys, ScottKeyed.returns xs ys /\
                      ScottKeyed.returns (ScottKeyed.cons x xs) (x :: ys))
  /\ (ObjectAlgebra.toArray (@ObjectAlgebra.empty T) = []
      /\ forall (x : T) (xs : ObjectAlgebra.List T),
           ObjectAlgebra.toArray (ObjectAlgebra.cons x xs)
             = x :: ObjectAlgebra.toArray xs).
Proof.
  repeat split.
  - exact (scott_returns_elements (@ScottEncoding.empty T)).
  - intros x xs. exists (ScottEncoding.elements xs). split.
    + apply scott_returns_elements.
    + exact (scott_returns_elements (ScottEncoding.cons x xs)).
  - exact (keyed_returns_elements (@ScottKeyed.empty T)).
  - intros x xs. exists (ScottKeyed.elements xs). split.
    + apply keyed_returns_elements.
    + exact (keyed_returns_elements (ScottKeyed.cons x xs)).
Qed.

(** C4. Scott encoding, both variants: [empty().caseOf] calls the
    [onEmpty]/[Empty] handler on no argument and returns its result;
    [cons(h, t).caseOf] calls the [onCons]/[Cons] handler on [(h, t)] and
    returns its result. *)
Theorem scott_constructors_dispatch (T Result : Type) :
  (forall (onEmpty : unit -> Result)
          (onCons : T -> ScottEncoding.List T -> Result),
      ScottEncoding.caseOf ScottEncoding.empty onEmpty onCons = onEmpty tt
      /\ forall (h : T) (t : ScottEncoding.List T),
           ScottEncoding.caseOf (ScottEncoding.cons h t) onEmpty onCons
             = onCons h t)
  /\ (forall cases : ScottKeyed.Cases T (ScottKeyed.List T) Result,
      ScottKeyed.caseOf ScottKeyed.empty cases = ScottKeyed.Empty cases tt
      /\ forall (h : T) (t : ScottKeyed.List T),
           ScottKeyed.caseOf (ScottKeyed.cons h t) cases
             = ScottKeyed.Cons cases h t).
Proof. repeat split. Qed.

(** C5. Object algebra: [empty()] applied to an algebra [L] is
    [L.empty()], and [cons(first, rest)] applied to [L] is
    [L.cons(first, rest(L))]: the tail is folded through [L]. *)
Theorem algebra_constructors_fold (T Result : Type)
    (L : ObjectAlgebra.ListAlg T Result) :
  ObjectAlgebra.empty L = ObjectAlgebra.ListAlg.empty L tt
  /\ forall (first : T) (rest : ObjectAlgebra.List T),
       ObjectAlgebra.cons first rest L
         = ObjectAlgebra.ListAlg.cons L first (rest Result L).
Proof. split; reflexivity. Qed.

(** C6. Scott encoding, both variants: [map(list, f).caseOf] with the
    caller's handlers is [list.caseOf] with a handler for the empty case
    that calls the caller's, and a handler for the cons case that calls
    the caller's on [f(head)] and [map(tail, f)]. *)
Theorem scott_map_dispatch (A B Result : Type) (f : A -> B) :
  (forall (list : ScottEncoding.List A) (onEmpty : unit -> Result)
          (onCons : B -> ScottEncoding.List B -> Result),
      ScottEncoding.caseOf (ScottEncoding.map list f) onEmpty onCons
        = ScottEncoding.caseOf list
            (fun _ => onEmpty tt)
            (fun head tail => onCons (f head) (ScottEncoding.map tail f)))
  /\ (forall (list : ScottKeyed.List A)
             (cases : ScottKeyed.Cases B (ScottKeyed.List B) Result),
      ScottKeyed.caseOf (ScottKeyed.map list f) cases
        = ScottKeyed.caseOf list
            {| ScottKeyed.Empty := fun _ => ScottKeyed.Empty cases tt;
               ScottKeyed.Cons := fun head tail =>
                 ScottKeyed.Cons cases (f head) (ScottKeyed.map tail f) |}).
Proof. split; reflexivity. Qed.

(** C7. Object algebra: a list written as a function literal over the
    algebra and the list of the same elements built with [cons]/[empty]
    have the same [toArray], and so have their images under [map]; for
    [(L) => L.cons(3, L.cons(2, L.empty()))] and [n => n * n] the array is
    [[9, 4]], as for [cons(3, cons(2, empty()))]. *)
Theorem literal_interoperable :
  (forall (A B : Type) (f : A -> B) (xs : array A),
      ObjectAlgebra.toArray (ObjectAlgebra.literal xs)
        = ObjectAlgebra.toArray (ObjectAlgebra.build xs)
      /\ ObjectAlgebra.toArray (ObjectAlgebra.map (ObjectAlgebra.literal xs) f)
        = ObjectAlgebra.toArray (ObjectAlgebra.map (ObjectAlgebra.build xs) f))
  /\ ObjectAlgebra.toArray Tests.lambda_squares = [9; 4]%Z
  /\ ObjectAlgebra.toArray Tests.alg_squares = [9; 4]%Z.
Proof.
  split; [|split; reflexivity].
  intros A B f xs. split.
  - unfold ObjectAlgebra.toArray. apply alg_literal_build.
  - unfold ObjectAlgebra.map. now rewrite alg_literal_build.
Qed.

(** C8. The operations are total on finite lists.  [empty], [cons], the
    tagged-union and object-algebra [map] and [toArray], and the Scott
    [map] are functions defined on every list; the Scott [toArray], the
    one operation whose recursion goes through the handlers, returns on
    every list value and on its image under [map] at every depth of stack
    from some depth on.  In particular so do all of them on the lists
    built from [cons]/[empty]. *)
Theorem operations_total (A B : Type) (f : A -> B) :
  (forall l : TaggedUnion.List A,
      exists (l' : TaggedUnion.List B) (ys : array A) (zs : array B),
        TaggedUnion.map l f = l' /\ TaggedUnion.toArray l = ys
        /\ TaggedUnion.toArray l' = zs)
  /\ (forall l : ScottEncoding.List A,
      exists (depth : nat) (ys : array A) (zs : array B),
        forall k,
          ScottEncoding.toArray (depth + k) l = Some ys
          /\ ScottEncoding.toArray (depth + k) (ScottEncoding.map l f)
             = Some zs)
  /\ (forall l : ScottKeyed.List A,
      exists (depth : nat) (ys : array A) (zs : array B),
        forall k,
          ScottKeyed.toArray (depth + k) l = Some ys
          /\ ScottKeyed.toArray (depth + k) (ScottKeyed.map l f) = Some zs)
  /\ (forall xs : array A,
      exists (l' : ObjectAlgebra.List B) (ys : array A) (zs : array B),
        ObjectAlgebra.map (ObjectAlgebra.build xs) f = l'
        /\ ObjectAlgebra.toArray (ObjectAlgebra.build xs) = ys
        /\ ObjectAlgebra.toArray l' = zs)
  /\ (forall xs : array A,
      exists depth, forall k,
        ScottEncoding.toArray (depth + k)
          (ScottEncoding.map (ScottEncoding.build xs) f) = Some (List.map f xs)
        /\ ScottKeyed.toArray (depth + k)
          (ScottKeyed.map (ScottKeyed.build xs) f) = Some (List.map f xs)).
Proof.
  repeat split.
  - intros l. now eexists _, _, _.
  - intros l.
    exists (S (length (ScottEncoding.elements l))),
      (ScottEncoding.elements l), (List.map f (ScottEncoding.elements l)).
    intros k. split.
    + apply scott_toArray_elements. lia.
    + apply (@scott_toArray_elements _ _ (ScottEncoding.map l f)).
      simpl. rewrite length_map. lia.
  - intros l.
    exists (S (length (ScottKeyed.elements l))),
      (ScottKeyed.elements l), (List.map f (ScottKeyed.elements l)).
    intros k. split.
    + apply keyed_toArray_elements. lia.
    + apply (@keyed_toArray_elements _ _ (ScottKeyed.map l f)).
      simpl. rewrite length_map. lia.
  - intros xs. now eexists _, _, _.
  - intros xs. exists (S (length xs)). intros k. split.
    + apply scott_toArray_map_build.
    + apply keyed_toArray_map_build.
Qed.

(** C9. Scott encoding: [map(list, f)] enters no dispatcher, whatever
    the list: it returns the closure holding [list] and [f], and the
    count of invocations is the one before the call.  The dispatchers run
    when a consumer supplies handlers: [toArray] of the image of a list
    of [n] elements enters [2 * (n + 1)] of them.  Object algebra:
    building a list with [cons]/[empty] invokes no list function; the
    list runs when an algebra is supplied, here the one of [toArray],
    once per node. *)
Theorem construction_is_lazy (A B : Type) (f : A -> B) :
  (forall (list : ScottEncoding.List A) (n : nat),
      ScottCounted.map list f n = (ScottEncoding.map list f, n))
  /\ (forall (xs : array A) (k n : nat),
      ScottCounted.toArray (S (length xs) + k)
        (ScottEncoding.map (ScottEncoding.build xs) f) n
      = (Some (List.map f xs), n + 2 * S (length xs)))
  /\ (forall (xs : array A) (n : nat),
      exists l : AlgebraCounted.List A,
        AlgebraCounted.build xs n = (l, n)
        /\ forall m, AlgebraCounted.toArray l m = (xs, m + S (length xs))).
Proof.
  split; [reflexivity|]. split.
  - intros xs k n. apply ScottCountedFacts.counted_toArray_map.
  - intros xs n.
    destruct (AlgebraCountedFacts.counted_alg_build xs n) as (l & Hl & Harr & _).
    now exists l.
Qed.

(** C10. In each encoding [map] keeps the number of elements: the array
    of [map(list, f)] is as long as the array of [list], for every list
    built from [cons]/[empty]. *)
Theorem map_preserves_length (A B : Type) (f : A -> B) (xs : array A) :
  length (TaggedUnion.toArray (TaggedUnion.map (TaggedUnion.build xs) f))
    = length (TaggedUnion.toArray (TaggedUnion.build xs))
  /\ (exists ys zs,
        ScottEncoding.returns (ScottEncoding.build xs) ys
        /\ ScottEncoding.returns
             (ScottEncoding.map (ScottEncoding.build xs) f) zs
        /\ length zs = length ys)
  /\ (exists ys zs,
        ScottKeyed.returns (ScottKeyed.build xs) ys
        /\ ScottKeyed.returns (ScottKeyed.map (ScottKeyed.build xs) f) zs
        /\ length zs = length ys)
  /\ length (ObjectAlgebra.toArray
               (ObjectAlgebra.map (ObjectAlgebra.build xs) f))
    = length (ObjectAlgebra.toArray (ObjectAlgebra.build xs)).
Proof.
  repeat split.
  - now rewrite tagged_toArray_map, length_map.
  - exists xs, (List.map f xs). repeat split.
    + apply scott_returns_build.
    + apply scott_returns_map_build.
    + apply length_map.
  - exists xs, (List.map f xs). repeat split.
    + apply keyed_returns_build.
    + apply keyed_returns_map_build.
    + apply length_map.
  - now rewrite alg_toArray_map_build, length_map.
Qed.

(** * Further properties of the code *)

Module ScottEncodingDepth.
Import ScottEncoding ScottEncodingFacts.

(** A stack no deeper than the list is long is exhausted. *)
Lemma scott_toArray_short (depth : nat) :
  forall (T : Type) (l : List T),
    depth <= length (elements l) -> toArray depth l = None.
Proof.
  induction depth as [|depth IH]; intros T l Hlen; [reflexivity|].
  simpl. rewrite scott_caseOf_view.
  pose proof (scott_view_elements l) as Hv.
  destruct (view l) as [|head tail]; rewrite Hv in Hlen; simpl in Hlen.
  - lia.
  - rewrite IH by lia. reflexivity.
Qed.

Lemma scott_toArray_exact (depth : nat) (T : Type) (l : List T) :
  toArray depth l
  = if length (elements l) <? depth then Some (elements l) else None.
Proof.
  destruct (Nat.ltb_spec (length (elements l)) depth) as [H|H].
  - now apply scott_toArray_elements.
  - now apply scott_toArray_short.
Qed.


End ScottEncodingDepth.

Module ScottKeyedDepth.
Import ScottKeyed ScottKeyedFacts.

(** A stack no deeper than the list is long is exhausted. *)
Lemma keyed_toArray_short (depth : nat) :
  forall (T : Type) (l : List T),
    depth <= length (elements l) -> toArray depth l = None.
Proof.
  induction depth as [|depth IH]; intros T l Hlen; [reflexivity|].
  simpl. rewrite keyed_caseOf_view. simpl.
  pose proof (keyed_view_elements l) as Hv.
  destruct (view l) as [|head tail]; rewrite Hv in Hlen; simpl in Hlen.
  - lia.
  - rewrite IH by lia. reflexivity.
Qed.

Lemma keyed_toArray_exact (depth : nat) (T : Type) (l : List T) :
  toArray depth l
  = if length (elements l) <? depth then Some (elements l) else None.
Proof.
  destruct (Nat.ltb_spec (length (elements l)) depth) as [H|H].
  - now apply keyed_toArray_elements.
  - now apply keyed_toArray_short.
Qed.


End ScottKeyedDepth.

Module FunctorLaws.
Import ObjectAlgebra ObjectAlgebraFacts.

Set Universe Polymorphism.





Unset Universe Polymorphism.

End FunctorLaws.

Import ScottEncodingDepth ScottKeyedDepth FunctorLaws.



(** X3. Tagged union: [toArray] and the nested [cons] of an array are
    inverse of each other, so a list is determined by its array. *)
Theorem tagged_roundtrip (T : Type) :
  (forall l : TaggedUnion.List T,
      TaggedUnion.build (TaggedUnion.toArray l) = l)
  /\ (forall xs : array T,
      TaggedUnion.toArray (TaggedUnion.build xs) = xs).
Proof.
  split.
  - induction l as [head tail IH|]; [|reflexivity].
    change (TaggedUnion.cons head
              (TaggedUnion.build (TaggedUnion.toArray tail))
            = TaggedUnion.Cons head tail).
    now rewrite IH.
  - apply tagged_toArray_build.
Qed.

(** X4. Scott encoding: whatever closures a list is made of, its
    [caseOf] calls one handler, the same for every consumer: [onEmpty],
    and then [toArray] returns the empty array, or [onCons] on one head
    and one tail, and then [toArray] returns that head followed by the
    array of that tail. *)
Theorem scott_dispatch_exclusive (T : Type) :
  (forall l : ScottEncoding.List T,
      (ScottEncoding.returns l []
       /\ forall (Result : Type) (onEmpty : unit -> Result)
                 (onCons : T -> ScottEncoding.List T -> Result),
            ScottEncoding.caseOf l onEmpty onCons = onEmpty tt)
      \/ (exists (h : T) (t : ScottEncoding.List T) (ys : array T),
            ScottEncoding.returns t ys
            /\ ScottEncoding.returns l (h :: ys)
            /\ forall (Result : Type) (onEmpty : unit -> Result)
                      (onCons : T -> ScottEncoding.List T -> Result),
                 ScottEncoding.caseOf l onEmpty onCons = onCons h t))
  /\ (forall l : ScottKeyed.List T,
      (ScottKeyed.returns l []
       /\ forall (Result : Type)
                 (cases : ScottKeyed.Cases T (ScottKeyed.List T) Result),
            ScottKeyed.caseOf l cases = ScottKeyed.Empty cases tt)
      \/ (exists (h : T) (t : ScottKeyed.List T) (ys : array T),
            ScottKeyed.returns t ys
            /\ ScottKeyed.returns l (h :: ys)
            /\ forall (Result : Type)
                      (cases : ScottKeyed.Cases T (ScottKeyed.List T) Result),
                 ScottKeyed.caseOf l cases = ScottKeyed.Cons cases h t)).
Proof.
  split; intros l.
  - pose proof (scott_view_elements l) as Hv.
    pose proof (scott_returns_elements l) as Hr.
    destruct (ScottEncoding.view l) as [|h t] eqn:E.
    + left. rewrite Hv in Hr. split; [exact Hr|].
      intros. now rewrite scott_caseOf_view, E.
    + right. exists h, t, (ScottEncoding.elements t). rewrite Hv in Hr.
      repeat split; [apply scott_returns_elements|exact Hr|].
      intros. now rewrite scott_caseOf_view, E.
  - pose proof (keyed_view_elements l) as Hv.
    pose proof (keyed_returns_elements l) as Hr.
    destruct (ScottKeyed.view l) as [|h t] eqn:E.
    + left. rewrite Hv in Hr. split; [exact Hr|].
      intros. now rewrite keyed_caseOf_view, E.
    + right. exists h, t, (ScottKeyed.elements t). rewrite Hv in Hr.
      repeat split; [apply keyed_returns_elements|exact Hr|].
      intros. now rewrite keyed_caseOf_view, E.
Qed.

(** X5. Scott encoding: [toArray] nests one call per element and one for
    the end of the list, with or without a [map] on top.  With a stack of
    [depth] nested calls it returns the whole array when the list is
    shorter than [depth] and nothing otherwise, never a part of it. *)
Theorem scott_toArray_depth (A B : Type) (f : A -> B) (xs : array A)
    (depth : nat) :
  ScottEncoding.toArray depth (ScottEncoding.build xs)
  = (if length xs <? depth then Some xs else None)
  /\ ScottEncoding.toArray depth
       (ScottEncoding.map (ScottEncoding.build xs) f)
     = (if length xs <? depth then Some (List.map f xs) else None)
  /\ ScottKeyed.toArray depth (ScottKeyed.build xs)
     = (if length xs <? depth then Some xs else None)
  /\ ScottKeyed.toArray depth (ScottKeyed.map (ScottKeyed.build xs) f)
     = (if length xs <? depth then Some (List.map f xs) else None).
Proof.
  rewrite !scott_toArray_exact, !keyed_toArray_exact. simpl.
  rewrite !length_map, scott_elements_build, keyed_elements_build.
  repeat split.
Qed.

Module ReplayFacts.
Import Replay.

Lemma replay_keyed_caseOf (T : Type) (l : ScottEncoding.List T) :
  forall (Result : Type)
         (cases : ScottKeyed.Cases T (ScottKeyed.List T) Result),
    ScottKeyed.caseOf (toKeyed l) cases
    = ScottEncoding.caseOf l
        (fun _ => ScottKeyed.Empty cases tt)
        (fun head tail => ScottKeyed.Cons cases head (toKeyed tail)).
Proof.
  induction l as [T|T head tail _|T A list IH f]; intros Result cases;
    simpl; try reflexivity.
  rewrite IH. reflexivity.
Qed.

Lemma replay_keyed_elements (T : Type) (l : ScottEncoding.List T) :
  ScottKeyed.elements (toKeyed l) = ScottEncoding.elements l.
Proof.
  induction l as [T|T head tail IH|T A list IH f]; simpl;
    now rewrite ?IH.
Qed.

Lemma replay_tagged_elements (T : Type) (l : ScottEncoding.List T) :
  TaggedUnion.toArray (toTagged l) = ScottEncoding.elements l.
Proof.
  induction l as [T|T head tail IH|T A list IH f]; simpl.
  - reflexivity.
  - now rewrite IH.
  - now rewrite tagged_toArray_map, IH.
Qed.

End ReplayFacts.

(** X6. The two variants of the Scott encoding are interchangeable: for
    every list made of [empty], [cons] and [map] calls, the keyed list
    made of the same calls dispatches a consumer as the positional one
    does (to the same handler, on the same head and on the keyed form of
    the same tail), and has the same [toArray] at every depth of stack. *)
Theorem scott_variants_agree (T : Type) (l : ScottEncoding.List T) :
  (forall (Result : Type)
          (cases : ScottKeyed.Cases T (ScottKeyed.List T) Result),
      ScottKeyed.caseOf (Replay.toKeyed l) cases
      = ScottEncoding.caseOf l
          (fun _ => ScottKeyed.Empty cases tt)
          (fun head tail =>
             ScottKeyed.Cons cases head (Replay.toKeyed tail)))
  /\ (forall depth : nat,
      ScottKeyed.toArray depth (Replay.toKeyed l)
      = ScottEncoding.toArray depth l).
Proof.
  split.
  - apply ReplayFacts.replay_keyed_caseOf.
  - intros depth.
    now rewrite keyed_toArray_exact, scott_toArray_exact,
      ReplayFacts.replay_keyed_elements.
Qed.

(** X7. A program made of [empty], [cons] and [map] calls, however many
    [map]s it stacks, gives the same array in the tagged-union module and
    in both variants of the Scott encoding. *)
Theorem replay_same_array (T : Type) (l : ScottEncoding.List T) :
  ScottEncoding.returns l (TaggedUnion.toArray (Replay.toTagged l))
  /\ ScottKeyed.returns (Replay.toKeyed l)
       (TaggedUnion.toArray (Replay.toTagged l)).
Proof.
  rewrite ReplayFacts.replay_tagged_elements. split.
  - apply scott_returns_elements.
  - rewrite <- ReplayFacts.replay_keyed_elements.
    apply keyed_returns_elements.
Qed.

Module ArticleMapFacts.
Import ObjectAlgebra ObjectAlgebraFacts.

Set Universe Polymorphism.

Lemma article_map_build (A B : Type) (f : A -> B) (xs : array A)
    (Result : Type) (L : ListAlg B Result) :
  ArticleMap.map (build xs) f L = build (List.map f xs) L.
Proof.
  induction xs as [|x xs IH]; [reflexivity|].
  change (ListAlg.cons L (f x) (ArticleMap.map (build xs) f L)
          = ListAlg.cons L (f x) (build (List.map f xs) L)).
  now rewrite IH.
Qed.

Lemma article_map_literal (A B : Type) (f : A -> B) (xs : array A)
    (Result : Type) (L : ListAlg B Result) :
  ArticleMap.map (literal xs) f L = ArticleMap.map (build xs) f L.
Proof. unfold ArticleMap.map. apply alg_literal_build. Qed.

Lemma alg_map_literal (A B : Type) (f : A -> B) (xs : array A) :
  map (literal xs) f = build (List.map f xs).
Proof.
  rewrite <- alg_map_build. unfold map. apply alg_literal_build.
Qed.

Unset Universe Polymorphism.

End ArticleMapFacts.

(** X8. Object algebra: a list built by [cons]/[empty] applied to an
    algebra is the right fold of the algebra over the elements: [L.cons]
    is called once per element, from the last to the first, starting from
    [L.empty()]. *)
Theorem algebra_build_is_fold (T Result : Type)
    (L : ObjectAlgebra.ListAlg T Result) (xs : array T) :
  ObjectAlgebra.build xs L
  = fold_right (ObjectAlgebra.ListAlg.cons L)
      (ObjectAlgebra.ListAlg.empty L tt) xs.
Proof.
  induction xs as [|x xs IH]; [reflexivity|].
  change (ObjectAlgebra.ListAlg.cons L x (ObjectAlgebra.build xs L)
          = ObjectAlgebra.ListAlg.cons L x
              (fold_right (ObjectAlgebra.ListAlg.cons L)
                 (ObjectAlgebra.ListAlg.empty L tt) xs)).
  now rewrite IH.
Qed.

(** X9. The function-returning [map] of the article and the [map] of
    [object-algebra.ts] give the same result on every algebra, for a list
    built by the constructors and for a list written as a literal; under
    [toArray] it is the array of the images. *)
Theorem article_map_agrees (A B : Type) (f : A -> B) (xs : array A) :
  (forall (Result : Type) (L : ObjectAlgebra.ListAlg B Result),
      ArticleMap.map (ObjectAlgebra.build xs) f L
      = ObjectAlgebra.map (ObjectAlgebra.build xs) f L
      /\ ArticleMap.map (ObjectAlgebra.literal xs) f L
         = ObjectAlgebra.map (ObjectAlgebra.literal xs) f L)
  /\ ObjectAlgebra.toArray (ArticleMap.map (ObjectAlgebra.build xs) f)
     = List.map f xs.
Proof.
  split.
  - intros Result L. split.
    + now rewrite ArticleMapFacts.article_map_build, alg_map_build.
    + now rewrite ArticleMapFacts.article_map_literal,
        ArticleMapFacts.article_map_build, ArticleMapFacts.alg_map_literal.
  - unfold ObjectAlgebra.toArray.
    rewrite ArticleMapFacts.article_map_build.
    apply alg_toArray_build.
Qed.

(** X10. In the tagged-union and the object-algebra module [map] of the
    list of [xs] is, as a value, the list that the constructors build
    from the images of [xs]; in the object-algebra module this is so too
    when the argument was written as a literal. *)
Theorem map_builds_images (A B : Type) (f : A -> B) (xs : array A) :
  TaggedUnion.map (TaggedUnion.build xs) f
  = TaggedUnion.build (List.map f xs)
  /\ ObjectAlgebra.map (ObjectAlgebra.build xs) f
     = ObjectAlgebra.build (List.map f xs)
  /\ ObjectAlgebra.map (ObjectAlgebra.literal xs) f
     = ObjectAlgebra.build (List.map f xs).
Proof.
  repeat split.
  - induction xs as [|x xs IH]; [reflexivity|].
    change (TaggedUnion.cons (f x)
              (TaggedUnion.map (TaggedUnion.build xs) f)
            = TaggedUnion.cons (f x) (TaggedUnion.build (List.map f xs))).
    now rewrite IH.
  - apply alg_map_build.
  - apply ArticleMapFacts.alg_map_literal.
Qed.

Module BuiltFacts.
Import Counted Counted.Notations.
Import AlgebraCounted ArticleMapCounted.

Set Universe Polymorphism.

Lemma counted_built (T : Type) (xs : array T) (n : nat) :
  build xs n = (built xs, n).
Proof.
  induction xs as [|x xs IH]; [reflexivity|].
  simpl. unfold bind. now rewrite IH.
Qed.

(** A built list run on an algebra whose methods only return a value. *)
Lemma counted_built_fold (T Result : Type) (nil : Result)
    (step : T -> Result -> Result) (xs : array T) (m : nat) :
  built xs
    {| ListAlg.empty := fun _ => ret nil;
       ListAlg.cons := fun head tail => ret (step head tail) |} m
  = (fold_right step nil xs, S (length xs) + m).
Proof.
  revert m. induction xs as [|x xs IH]; intros m; [reflexivity|].
  simpl. unfold bind at 1, invoked. unfold bind at 1.
  rewrite IH. unfold ret. simpl.
  now rewrite (Nat.add_succ_r (length xs) m).
Qed.

Lemma fold_right_spread (T : Type) (xs : array T) :
  fold_right (@Datatypes.cons T) [] xs = xs.
Proof. induction xs as [|x xs IH]; simpl; now rewrite ?IH. Qed.

Lemma counted_built_toArray (T : Type) (xs : array T) (m : nat) :
  toArray (built xs) m = (xs, S (length xs) + m).
Proof.
  unfold toArray. rewrite counted_built_fold.
  now rewrite (fold_right_spread xs).
Qed.

Lemma counted_built_map (A B : Type) (f : A -> B) (xs : array A) (m : nat) :
  AlgebraCounted.map (built xs) f m
  = (built (List.map f xs), S (length xs) + m).
Proof.
  revert m. induction xs as [|x xs IH]; intros m; [reflexivity|].
  unfold AlgebraCounted.map in *. simpl.
  unfold bind at 1, invoked. unfold bind at 1.
  rewrite IH. unfold cons, ret. simpl.
  now rewrite (Nat.add_succ_r (length xs) m).
Qed.

Lemma counted_article_toArray (A B : Type) (f : A -> B) (xs : array A)
    (m k : nat) :
  toArray (fst (ArticleMapCounted.map (built xs) f k)) m
  = (List.map f xs, S (S (length xs)) + m).
Proof.
  unfold ArticleMapCounted.map, ret, toArray. simpl.
  unfold bind at 1, invoked.
  pose proof (counted_built_fold (@nil B) (fun head tail => f head :: tail)
                xs (S m)) as H.
  simpl in H. unfold ret in *. rewrite H. simpl.
  rewrite (Nat.add_succ_r (length xs) m).
  assert (E : fold_right (fun head tail => f head :: tail) [] xs
              = List.map f xs).
  { clear H. induction xs as [|x xs IH]; simpl; now rewrite ?IH. }
  now rewrite E.
Qed.

Unset Universe Polymorphism.

End BuiltFacts.

(** X11. Object algebra, counting the invocations of list functions:
    [map] of [object-algebra.ts] hands its algebra to the list at once.
    On a list of [n] elements built by the constructors it has invoked
    [n + 1] list functions when it returns, and what it returns is the
    list that the constructors build from the images; [toArray] of that
    result invokes [n + 1] more. *)
Theorem algebra_map_is_eager (A B : Type) (f : A -> B) (xs : array A)
    (n m k : nat) :
  AlgebraCounted.map (fst (AlgebraCounted.build xs n)) f m
  = (fst (AlgebraCounted.build (List.map f xs) n), S (length xs) + m)
  /\ AlgebraCounted.toArray
       (fst (AlgebraCounted.map (fst (AlgebraCounted.build xs n)) f m)) k
     = (List.map f xs, S (length xs) + k).
Proof.
  rewrite !BuiltFacts.counted_built. cbn [fst]. split.
  - apply BuiltFacts.counted_built_map.
  - rewrite BuiltFacts.counted_built_map. cbn [fst].
    rewrite BuiltFacts.counted_built_toArray.
    now rewrite length_map.
Qed.

(** X12. Object algebra, counting the invocations of list functions:
    the function-returning [map] of the article invokes none when it is
    called; [toArray] of its result then invokes [n + 2], the function
    it returned and the [n + 1] of the list, and gives the array of the
    images. *)
Theorem article_map_is_lazy (A B : Type) (f : A -> B) (xs : array A)
    (n m k : nat) :
  snd (ArticleMapCounted.map (fst (AlgebraCounted.build xs n)) f m) = m
  /\ AlgebraCounted.toArray
       (fst (ArticleMapCounted.map (fst (AlgebraCounted.build xs n)) f m)) k
     = (List.map f xs, S (S (length xs)) + k).
Proof.
  rewrite !BuiltFacts.counted_built. cbn [fst]. split; [reflexivity|].
  apply (BuiltFacts.counted_article_toArray f xs k m).
Qed.

Module StackedMaps.
Import Counted Counted.Notations.
Import ScottEncoding Replay.

(** One call of a counted [caseOf] enters [layers l] dispatchers and then
    calls the handler that [view l] tells. *)
Lemma counted_caseOf_layers (T : Type) (l : List T) :
  forall (Result : Type) (onEmpty : unit -> Run Result)
         (onCons : T -> List T -> Run Result) (n : nat),
    ScottCounted.caseOf l onEmpty onCons n
    = match view l with
      | IsEmpty => onEmpty tt (layers l + n)
      | IsCons head tail => onCons head tail (layers l + n)
      end.
Proof.
  induction l as [T|T head tail _|T A list IH f];
    intros Result onEmpty onCons n; try reflexivity.
  change (ScottCounted.caseOf list
            (fun _ => onEmpty tt)
            (fun head tail =>
               mapped <- ScottCounted.map tail f ;; onCons (f head) mapped)
            (S n)
          = match view (MapClosure list f) with
            | IsEmpty => onEmpty tt (layers (MapClosure list f) + n)
            | IsCons head tail =>
                onCons head tail (layers (MapClosure list f) + n)
            end).
  rewrite IH. simpl. rewrite Nat.add_succ_r.
  now destruct (view list).
Qed.

Lemma layers_mapTimes (A : Type) (f : A -> A) (k : nat) (l : List A) :
  layers (mapTimes k f l) = k + layers l.
Proof.
  induction k as [|k IH]; [reflexivity|].
  simpl. now rewrite <- IH.
Qed.

Lemma view_mapTimes_empty (A : Type) (f : A -> A) (k : nat) :
  view (mapTimes k f empty) = IsEmpty.
Proof.
  induction k as [|k IH]; [reflexivity|].
  unfold mapTimes in *. simpl. now rewrite IH.
Qed.

Lemma view_mapTimes_cons (A : Type) (f : A -> A) (k : nat) (x : A)
    (tail : List A) :
  view (mapTimes k f (cons x tail))
  = IsCons (Nat.iter k f x) (mapTimes k f tail).
Proof.
  induction k as [|k IH]; [reflexivity|].
  unfold mapTimes in *. simpl. now rewrite IH.
Qed.

End StackedMaps.

(** X13. Scott encoding, counting the invocations of dispatchers: every
    [map] stacked on a list adds one dispatcher per node when the list is
    consumed.  [toArray] of a list of [n] elements under [k] maps of [f]
    enters [(k + 1) * (n + 1)] dispatchers, and returns the elements with
    [f] applied [k] times. *)
Theorem stacked_maps_cost (A : Type) (f : A -> A) (k : nat) (xs : array A)
    (j n : nat) :
  ScottCounted.toArray (S (length xs) + j)
    (Replay.mapTimes k f (ScottEncoding.build xs)) n
  = (Some (List.map (Nat.iter k f) xs), S k * S (length xs) + n).
Proof.
  revert j n. induction xs as [|x xs IH]; intros j n.
  - change (ScottCounted.toArray (S (length (@nil A)) + j)
              (Replay.mapTimes k f (ScottEncoding.build [])) n)
      with (ScottCounted.caseOf (Replay.mapTimes k f ScottEncoding.empty)
              (fun _ => Counted.ret (Some (@nil A)))
              (fun head tail =>
                 Counted.bind (ScottCounted.toArray j tail) (fun rest =>
                 Counted.ret (match rest with
                      | Some rest => Some (head :: rest)
                      | None => None
                      end))) n).
    rewrite StackedMaps.counted_caseOf_layers,
      StackedMaps.view_mapTimes_empty, StackedMaps.layers_mapTimes.
    unfold Counted.ret. simpl. do 2 f_equal. lia.
  - change (ScottCounted.toArray (S (length (x :: xs)) + j)
              (Replay.mapTimes k f (ScottEncoding.build (x :: xs))) n)
      with (ScottCounted.caseOf
              (Replay.mapTimes k f
                 (ScottEncoding.cons x (ScottEncoding.build xs)))
              (fun _ => Counted.ret (Some (@nil A)))
              (fun head tail =>
                 Counted.bind
                   (ScottCounted.toArray (S (length xs) + j) tail)
                   (fun rest =>
                 Counted.ret (match rest with
                      | Some rest => Some (head :: rest)
                      | None => None
                      end))) n).
    rewrite StackedMaps.counted_caseOf_layers,
      StackedMaps.view_mapTimes_cons, StackedMaps.layers_mapTimes.
    unfold Counted.bind. rewrite IH. unfold Counted.ret. simpl.
    do 2 f_equal. lia.
Qed.
